(** * ThreadSafeHashTable.h: a sequential model of [thread_safe_hash_table]

    The header defines a class template [thread_safe_hash_table<K, V, hash_function>]
    holding a [std::vector<Bucket>] and a [size_t buckets_count]; every [Bucket]
    holds a [std::list<std::pair<K, V>>].  The model below follows the member
    functions one by one.  The two [std::shared_mutex] members only order
    concurrent callers; the model describes what one call does to the table
    when it runs alone, so the mutexes carry no data and are left out.

    - [size_t] values are modelled in [N]; the only arithmetic is [%], which
      cannot wrap.  [x % 0] is undefined in C++ and is reported as such.
    - [std::vector::operator[]] is unchecked: an index past the end and
      [std::list::back] of an empty list are undefined behaviour, reported by
      the [Undefined] outcome.
    - A [V&] or [V*] into a bucket is the place of a list node: the slot of
      the bucket and the node's position in the bucket's list. *)

From Stdlib Require Import NArith String Lia.
From stdpp Require Import base decidable option numbers list strings.

Local Open Scope N_scope.

(** ** Outcomes of a call *)

Inductive outcome (A : Type) : Type :=
| Ok (a : A)
| Undefined
| OutOfRange (what : string).

Arguments Ok {A} a.
Arguments Undefined {A}.
Arguments OutOfRange {A} what.

#[global] Instance outcome_ret : MRet outcome := λ A a, Ok a.
#[global] Instance outcome_bind : MBind outcome := λ A B f m,
  match m with
  | Ok a => f a
  | Undefined => Undefined
  | OutOfRange w => OutOfRange w
  end.

(** ** Argument packs *)

(** The argument packs of [emplace].  Both [emplace] bodies build the value
    as [V(std::forward<V>(args)...)]: every argument is forwarded as a [V],
    so it has to be a [V] (or convert implicitly to one at the call), and
    the pack reaches the constructor of [V] as that many [V].  Of [V] the
    header uses the default constructor ([V()], line 106) and the move
    constructor (lines 25 and 31) only, so the packs the call instantiates
    for are the empty one and a single [V]; a pack of several arguments, or
    an argument that is no [V], has no instantiation and is no value of this
    type. *)
Inductive emplace_args (V : Type) : Type :=
| NoArgs
| OneArg (value : V).

Arguments NoArgs {V}.
Arguments OneArg {V} value.

(** [V(std::forward<V>(args)...)]: [V()] for the empty pack, the move
    constructor for a single [V]; the moved-to object has the value of its
    source. *)
Definition construct {V : Type} (V_default : V) (args : emplace_args V) : V :=
  match args with
  | NoArgs => V_default
  | OneArg value => value
  end.

(** ** struct Bucket *)

Module Bucket.
Section bucket.
Context {K V : Type} `{EqDecision K}.

(** [using bucket_data = std::pair<K, V>] *)
Definition bucket_data : Type := K * V.

(** The only data member besides the mutex: [std::list<bucket_data> data]. *)
Record t : Type := Build { data : list bucket_data }.

(** A default-constructed bucket, as [std::vector<Bucket>(n)] makes them. *)
Definition empty : t := Build [].

(** [data.push_back({ key, value })] *)
Definition insert (b : t) (key : K) (value : V) : t :=
  Build (data b ++ [(key, value)]).

(** [data.push_back({ key, V(std::forward<V>(args)...) })] *)
Definition emplace (V_default : V) (b : t) (key : K) (args : emplace_args V) : t :=
  Build (data b ++ [(key, construct V_default args)]).

(** [find_if(data.begin(), data.end(), [&key](...){ return data.first == key; })]:
    the iterator is the position of the first match, [None] is [data.end()]. *)
Definition find_if (b : t) (key : K) : option nat :=
  fst <$> list_find (λ e : bucket_data, e.1 = key) (data b).

(** [if (it != data.end()) data.erase(it);] *)
Definition erase (b : t) (key : K) : t :=
  match find_if b key with
  | Some it => Build (delete it (data b))
  | None => b
  end.

(** [return it != data.end() ? &it->second : nullptr;] *)
Definition get_value (b : t) (key : K) : option nat := find_if b key.

(** [return data.back().second;]; [back()] of an empty list is undefined. *)
Definition get_last_element (b : t) : outcome nat :=
  match data b with
  | [] => Undefined
  | _ :: _ => Ok (Nat.pred (length (data b)))
  end.

(** Reading through a pointer or reference to the [second] of a node. *)
Definition value_at (b : t) (p : nat) : option V := snd <$> data b !! p.

(** [struct Bucket] declares no [operator->]. *)
Definition operator_arrow : option (t → t) := None.
End bucket.

Arguments t : clear implicits.
Arguments bucket_data : clear implicits.
End Bucket.

(** ** class thread_safe_hash_table *)

Record thread_safe_hash_table (K V : Type) : Type := Table {
  buckets_count : N;
  data : list (Bucket.t K V)
}.

Arguments Table {K V} buckets_count data.
Arguments buckets_count {K V} _.
Arguments data {K V} _.

(** A [V&] handed out by the table. *)
Record ref : Type := Ref { ref_slot : N; ref_pos : nat }.

Section table.
Context {K V : Type} `{EqDecision K}.

(** [hash_function hash; hash(key)] *)
Variable hash : K → N.
(** [V()] *)
Variable V_default : V.

Local Abbreviation table := (thread_safe_hash_table K V).

(** [return hash(key) % buckets_count;] *)
Definition get_index_by_key (t : table) (key : K) : outcome N :=
  if decide (buckets_count t = 0) then Undefined
  else Ok (hash key mod buckets_count t).

(** [thread_safe_hash_table() : buckets_count(10), data(buckets_count) {}];
    [buckets_count] is declared before [data], so it is initialised first. *)
Definition thread_safe_hash_table_ctor : table :=
  let buckets_count := 10 in
  Table buckets_count (replicate (N.to_nat buckets_count) Bucket.empty).

(** [data[index]], read *)
Definition slot (t : table) (index : N) : outcome (Bucket.t K V) :=
  match data t !! N.to_nat index with
  | Some b => Ok b
  | None => Undefined
  end.

(** [data[index]] after a mutating member call left the bucket as [b] *)
Definition set_slot (t : table) (index : N) (b : Bucket.t K V) : table :=
  Table (buckets_count t) (<[N.to_nat index := b]> (data t)).

Definition insert (t : table) (key : K) (value : V) : outcome table :=
  index ← get_index_by_key t key;
  b ← slot t index;
  Ok (set_slot t index (Bucket.insert b key value)).

(** The table builds [V(std::forward<V>(args)...)] itself (line 89) and hands
    that one [V] to [Bucket::emplace], which builds the stored value as
    [V(std::forward<V>(args)...)] again (line 31), now from that single [V]:
    the move constructor. *)
Definition emplace (t : table) (key : K) (args : emplace_args V) : outcome table :=
  index ← get_index_by_key t key;
  b ← slot t index;
  Ok (set_slot t index
        (Bucket.emplace V_default b key (OneArg (construct V_default args)))).

Definition erase (t : table) (key : K) : outcome table :=
  index ← get_index_by_key t key;
  b ← slot t index;
  Ok (set_slot t index (Bucket.erase b key)).

(** Lines 100 and 103 of [operator[]]: [data[index].get_value(key)]. *)
Definition get_value (t : table) (key : K) : outcome (option ref) :=
  index ← get_index_by_key t key;
  b ← slot t index;
  Ok (Ref index <$> Bucket.get_value b key).

(** [V& operator[](K&& key)] *)
Definition operator_index (t : table) (key : K) : outcome (table * ref) :=
  index ← get_index_by_key t key;
  b ← slot t index;
  let value := Bucket.get_value b key in
  t' ← match value with
       | None =>
           b0 ← slot t index;
           Ok (set_slot t index (Bucket.insert b0 key V_default))
       | Some _ => Ok t
       end;
  r ← match value with
      | Some p => Ok (Ref index p)
      | None =>
          b1 ← slot t' index;
          p ← Bucket.get_last_element b1;
          Ok (Ref index p)
      end;
  Ok (t', r).

(** [V& at(K&& key)], with the member access that resolves [->] on
    [data[index]] as a parameter: [None] when the bucket type offers no
    such member, in which case the body has no instantiation. *)
Definition at_with (arrow : option (Bucket.t K V → Bucket.t K V))
    (t : table) (key : K) : option (outcome ref) :=
  match arrow with
  | None => None
  | Some pointee =>
      Some (index ← get_index_by_key t key;
            b ← slot t index;
            match Bucket.get_value (pointee b) key with
            | None => OutOfRange "Key doesn't exist"
            | Some p => Ok (Ref index p)
            end)
  end.

(** [data[index]->get_value(...)]: [data[index]] is a [Bucket&]. *)
Definition at_ : table → K → option (outcome ref) :=
  at_with Bucket.operator_arrow.

(** [data.clear()] on the vector of buckets; [buckets_count] is untouched. *)
Definition clear (t : table) : table := Table (buckets_count t) [].

Definition bucket_count (t : table) : N := buckets_count t.

(** Reading through a reference returned by the table. *)
Definition deref (t : table) (r : ref) : option V :=
  b ← data t !! N.to_nat (ref_slot r);
  Bucket.value_at b (ref_pos r).
End table.

(** ** The table's invariants *)

(** "slot count == bucket_count": the vector still has its [buckets_count]
    buckets (and there is at least one, so [%] is defined). *)
Definition slots_intact {K V : Type} (t : thread_safe_hash_table K V) : Prop :=
  buckets_count t ≠ 0 ∧ length (data t) = N.to_nat (buckets_count t).

#[global] Instance slots_intact_dec {K V : Type} (t : thread_safe_hash_table K V) :
  Decision (slots_intact t).
Proof. unfold slots_intact. apply _. Defined.

(** No bucket of the table stores an entry under [key]. *)
Definition key_absent {K V : Type} (t : thread_safe_hash_table K V) (key : K) : Prop :=
  Forall (λ b, Forall (λ e : K * V, e.1 ≠ key) (Bucket.data b)) (data t).

#[global] Instance key_absent_dec {K V : Type} `{EqDecision K}
    (t : thread_safe_hash_table K V) (key : K) : Decision (key_absent t key).
Proof. unfold key_absent. apply _. Defined.

(** ** Keyed mutators, and runs of them *)

Inductive keyed_op (K V : Type) : Type :=
| OpInsert (key : K) (value : V)
| OpEmplace (key : K) (args : emplace_args V)
| OpErase (key : K)
| OpIndex (key : K).

Arguments OpInsert {K V} key value.
Arguments OpEmplace {K V} key args.
Arguments OpErase {K V} key.
Arguments OpIndex {K V} key.

Definition op_key {K V : Type} (o : keyed_op K V) : K :=
  match o with
  | OpInsert key _ | OpEmplace key _ | OpErase key | OpIndex key => key
  end.

Section runs.
Context {K V : Type} `{EqDecision K}.
Variable hash : K → N.
Variable V_default : V.

(** One call; the reference returned by [operator[]] is dropped. *)
Definition step (t : thread_safe_hash_table K V) (o : keyed_op K V)
    : outcome (thread_safe_hash_table K V) :=
  match o with
  | OpInsert key value => insert hash t key value
  | OpEmplace key args => emplace hash V_default t key args
  | OpErase key => erase hash t key
  | OpIndex key => r ← operator_index hash V_default t key; Ok r.1
  end.

(** A sequence of calls, first to last. *)
Fixpoint run (t : thread_safe_hash_table K V) (os : list (keyed_op K V))
    : outcome (thread_safe_hash_table K V) :=
  match os with
  | [] => Ok t
  | o :: os' => t' ← step t o; run t' os'
  end.
End runs.

(** ** What a caller observes *)

(** The value a lookup finds: [get_value] and a read through the pointer it
    returns. *)
Definition found_value {K V : Type} `{EqDecision K} (hash : K → N)
    (t : thread_safe_hash_table K V) (key : K) : outcome (option V) :=
  r ← get_value hash t key;
  Ok (r ≫= deref t).

(** The number of entries the table stores, over all its buckets. *)
Definition entry_count {K V : Type} (t : thread_safe_hash_table K V) : nat :=
  sum_list_with (λ b, length (Bucket.data b)) (data t).

(** Every entry sits in the slot its key hashes to. *)
Definition well_placed {K V : Type} (hash : K → N)
    (t : thread_safe_hash_table K V) : Prop :=
  ∀ (j : nat) b e,
    data t !! j = Some b → e ∈ Bucket.data b →
    N.to_nat (hash e.1 mod buckets_count t) = j.

(** Two views of a list of entries, by recursion on the list: the value of
    the first entry under [key], and the list without that entry. *)
Fixpoint first_value {K V : Type} `{EqDecision K} (key : K) (l : list (K * V))
    : option V :=
  match l with
  | [] => None
  | e :: l' => if decide (e.1 = key) then Some e.2 else first_value key l'
  end.

Fixpoint remove_first {K V : Type} `{EqDecision K} (key : K) (l : list (K * V))
    : list (K * V) :=
  match l with
  | [] => []
  | e :: l' => if decide (e.1 = key) then l' else e :: remove_first key l'
  end.

(** What one keyed call does to the bucket it is routed to. *)
Definition bucket_effect {K V : Type} `{EqDecision K} (V_default : V) (o : keyed_op K V) (b : Bucket.t K V)
    : Bucket.t K V :=
  match o with
  | OpInsert key value => Bucket.insert b key value
  | OpEmplace key args =>
      Bucket.emplace V_default b key (OneArg (construct V_default args))
  | OpErase key => Bucket.erase b key
  | OpIndex key =>
      match Bucket.get_value b key with
      | Some _ => b
      | None => Bucket.insert b key V_default
      end
  end.

(** * Properties *)

(** Scanning a bucket whose entries are known. *)
Ltac scan_bucket :=
  unfold Bucket.get_value, Bucket.erase, Bucket.insert, Bucket.find_if; simpl;
  repeat (rewrite decide_True by done; simpl).

(** ** Buckets *)

Section bucket_facts.
Context {K V : Type} `{EqDecision K}.
Implicit Types (b : Bucket.t K V) (key : K) (value : V).

Lemma find_if_None b key :
  Bucket.find_if b key = None ↔ ∀ e, e ∈ Bucket.data b → e.1 ≠ key.
Proof.
  unfold Bucket.find_if. rewrite fmap_None, list_find_None, Forall_forall.
  reflexivity.
Qed.

Lemma find_if_push_back_hit b key value :
  Bucket.find_if b key = None →
  Bucket.find_if (Bucket.insert b key value) key = Some (length (Bucket.data b)).
Proof.
  unfold Bucket.find_if, Bucket.insert. simpl. intros Hn%fmap_None.
  rewrite (list_find_app_r _ _ _ Hn). simpl.
  rewrite decide_True by done. reflexivity.
Qed.

Lemma erase_absent b key : Bucket.find_if b key = None → Bucket.erase b key = b.
Proof. unfold Bucket.erase. by intros ->. Qed.

Lemma get_last_element_insert b key value :
  Bucket.get_last_element (Bucket.insert b key value) = Ok (length (Bucket.data b)).
Proof.
  unfold Bucket.get_last_element, Bucket.insert. simpl.
  destruct (Bucket.data b ++ [(key, value)]) eqn:E.
  - by destruct (Bucket.data b).
  - rewrite <- E, length_app. simpl. f_equal. lia.
Qed.

Lemma value_at_insert_last b key value :
  Bucket.value_at (Bucket.insert b key value) (length (Bucket.data b)) = Some value.
Proof.
  unfold Bucket.value_at, Bucket.insert. simpl.
  by rewrite lookup_app_r, Nat.sub_diag.
Qed.

End bucket_facts.

(** ** The table: routing of one call *)

Section table_facts.
Context {K V : Type} `{EqDecision K}.
Variable hash : K → N.
Variable V_default : V.
Implicit Types (t : thread_safe_hash_table K V) (b : Bucket.t K V).
Implicit Types (key : K) (value : V) (args : emplace_args V).

Lemma ctor_intact : slots_intact (@thread_safe_hash_table_ctor K V).
Proof. split; [done|]. reflexivity. Qed.

Lemma index_in_range t key :
  slots_intact t → hash key mod buckets_count t < buckets_count t.
Proof. intros [Hn _]. by apply N.mod_lt. Qed.

Lemma get_index_by_key_intact t key :
  slots_intact t → get_index_by_key hash t key = Ok (hash key mod buckets_count t).
Proof. intros [Hn _]. unfold get_index_by_key. by rewrite decide_False. Qed.

Lemma slot_in_range t (i : N) :
  slots_intact t → i < buckets_count t → is_Some (data t !! N.to_nat i).
Proof. intros [_ Hl] Hi. apply lookup_lt_is_Some. lia. Qed.

Lemma target_bucket t key :
  slots_intact t → is_Some (data t !! N.to_nat (hash key mod buckets_count t)).
Proof. intros Ht. apply slot_in_range; [done|]. by apply index_in_range. Qed.

Lemma slot_Some t (i : N) b : data t !! N.to_nat i = Some b → slot t i = Ok b.
Proof. unfold slot. by intros ->. Qed.

Lemma set_slot_intact t (i : N) b : slots_intact t → slots_intact (set_slot t i b).
Proof. intros [Hn Hl]. split; [done|]. simpl. by rewrite length_insert. Qed.

Lemma set_slot_same t (i : N) b :
  data t !! N.to_nat i = Some b → set_slot t i b = t.
Proof. destruct t as [n d]. unfold set_slot. simpl. intros Hb. by rewrite list_insert_id. Qed.

Lemma set_slot_lookup t (i : N) b b0 :
  data t !! N.to_nat i = Some b0 → data (set_slot t i b) !! N.to_nat i = Some b.
Proof. intros Hb. simpl. apply list_lookup_insert_eq. by eapply lookup_lt_Some. Qed.

Lemma set_slot_lookup_ne t (i : N) b (j : nat) :
  j ≠ N.to_nat i → data (set_slot t i b) !! j = data t !! j.
Proof. intros Hj. simpl. by apply list_lookup_insert_ne. Qed.

Lemma key_absent_bucket t key (j : nat) b :
  key_absent t key → data t !! j = Some b → Bucket.find_if b key = None.
Proof.
  intros Ha Hb. apply find_if_None. intros e He.
  pose proof (Forall_lookup_1 _ _ _ _ Ha Hb) as Hf.
  rewrite Forall_forall in Hf. by apply Hf.
Qed.

(** What each member function does once the target bucket is known. *)

Lemma insert_routed t key value b :
  slots_intact t →
  data t !! N.to_nat (hash key mod buckets_count t) = Some b →
  insert hash t key value
  = Ok (set_slot t (hash key mod buckets_count t) (Bucket.insert b key value)).
Proof.
  intros Ht Hb. unfold insert.
  rewrite (get_index_by_key_intact _ _ Ht). simpl.
  by rewrite (slot_Some _ _ _ Hb).
Qed.

Lemma emplace_routed t key args b :
  slots_intact t →
  data t !! N.to_nat (hash key mod buckets_count t) = Some b →
  emplace hash V_default t key args
  = Ok (set_slot t (hash key mod buckets_count t)
          (Bucket.insert b key (construct V_default args))).
Proof.
  intros Ht Hb. unfold emplace.
  rewrite (get_index_by_key_intact _ _ Ht). simpl.
  by rewrite (slot_Some _ _ _ Hb).
Qed.

Lemma erase_routed t key b :
  slots_intact t →
  data t !! N.to_nat (hash key mod buckets_count t) = Some b →
  erase hash t key
  = Ok (set_slot t (hash key mod buckets_count t) (Bucket.erase b key)).
Proof.
  intros Ht Hb. unfold erase.
  rewrite (get_index_by_key_intact _ _ Ht). simpl.
  by rewrite (slot_Some _ _ _ Hb).
Qed.

Lemma get_value_routed t key b :
  slots_intact t →
  data t !! N.to_nat (hash key mod buckets_count t) = Some b →
  get_value hash t key
  = Ok (Ref (hash key mod buckets_count t) <$> Bucket.get_value b key).
Proof.
  intros Ht Hb. unfold get_value.
  rewrite (get_index_by_key_intact _ _ Ht). simpl.
  by rewrite (slot_Some _ _ _ Hb).
Qed.

Lemma operator_index_hit t key b p :
  slots_intact t →
  data t !! N.to_nat (hash key mod buckets_count t) = Some b →
  Bucket.get_value b key = Some p →
  operator_index hash V_default t key
  = Ok (t, Ref (hash key mod buckets_count t) p).
Proof.
  intros Ht Hb Hp. unfold operator_index.
  rewrite (get_index_by_key_intact _ _ Ht). simpl.
  rewrite (slot_Some _ _ _ Hb). simpl. by rewrite Hp.
Qed.

Lemma operator_index_miss t key b :
  slots_intact t →
  data t !! N.to_nat (hash key mod buckets_count t) = Some b →
  Bucket.get_value b key = None →
  operator_index hash V_default t key
  = Ok (set_slot t (hash key mod buckets_count t) (Bucket.insert b key V_default),
        Ref (hash key mod buckets_count t) (length (Bucket.data b))).
Proof.
  intros Ht Hb Hp. unfold operator_index.
  rewrite (get_index_by_key_intact _ _ Ht). simpl.
  rewrite (slot_Some _ _ _ Hb). simpl. rewrite Hp. simpl.
  rewrite (slot_Some _ _ _ (set_slot_lookup _ _ _ _ Hb)). simpl.
  by rewrite get_last_element_insert.
Qed.

(** A key the lookup finds is returned by [operator[]] as found, and the
    table is left alone. *)
Lemma operator_index_found t key r :
  get_value hash t key = Ok (Some r) →
  operator_index hash V_default t key = Ok (t, r).
Proof.
  unfold get_value, operator_index.
  destruct (get_index_by_key hash t key) as [index| |]; simpl; [|done..].
  destruct (slot t index) as [b| |]; simpl; [|done..].
  destruct (Bucket.get_value b key) as [p|]; simpl; [|done].
  by intros [= <-].
Qed.
End table_facts.

(** ** Runs of keyed calls *)

Section run_facts.
Context {K V : Type} `{EqDecision K}.
Variable hash : K → N.
Variable V_default : V.
Implicit Types (t : thread_safe_hash_table K V) (o : keyed_op K V).

(** Every keyed mutator rewrites the bucket of its key's slot and nothing else. *)
Lemma step_routed t o :
  slots_intact t →
  ∃ b', step hash V_default t o
        = Ok (set_slot t (hash (op_key o) mod buckets_count t) b').
Proof.
  intros Ht.
  destruct (target_bucket hash t (op_key o) Ht) as [b Hb].
  destruct o as [key value|key args|key|key]; simpl in *.
  - eexists. by apply insert_routed.
  - eexists. by apply emplace_routed.
  - eexists. by apply erase_routed.
  - destruct (Bucket.get_value b key) as [p|] eqn:Hp.
    + exists b. rewrite (operator_index_hit _ _ _ _ _ _ Ht Hb Hp). simpl.
      by rewrite (set_slot_same _ _ _ Hb).
    + eexists. by rewrite (operator_index_miss _ _ _ _ _ Ht Hb Hp).
Qed.

Lemma step_intact t o :
  slots_intact t →
  ∃ t', step hash V_default t o = Ok t' ∧ slots_intact t'
        ∧ buckets_count t' = buckets_count t.
Proof.
  intros Ht. destruct (step_routed t o Ht) as [b' ->].
  eexists. split; [done|]. split; [by apply set_slot_intact|done].
Qed.

Lemma run_intact os : ∀ t,
  slots_intact t →
  ∃ t', run hash V_default t os = Ok t' ∧ slots_intact t'
        ∧ buckets_count t' = buckets_count t.
Proof.
  induction os as [|o os IH]; intros t Ht; simpl.
  - by exists t.
  - destruct (step_intact t o Ht) as (t1 & -> & Ht1 & Hc1). simpl.
    destruct (IH t1 Ht1) as (t' & Hrun & Ht' & Hc').
    exists t'. split; [done|]. split; [done|]. congruence.
Qed.
End run_facts.

(** ** A freshly constructed table *)

Section fresh_table.
Context {K V : Type} `{EqDecision K}.
Variable hash : K → N.
Implicit Types (key : K) (value : V).

Lemma ctor_slot key :
  data (@thread_safe_hash_table_ctor K V)
    !! N.to_nat (hash key mod buckets_count (@thread_safe_hash_table_ctor K V))
  = Some Bucket.empty.
Proof.
  destruct (target_bucket hash (@thread_safe_hash_table_ctor K V) key ctor_intact)
    as [b Hb].
  rewrite Hb. f_equal.
  apply list_elem_of_lookup_2 in Hb.
  change (b ∈ replicate (N.to_nat 10) (@Bucket.empty K V)) in Hb.
  by apply elem_of_replicate in Hb as [-> _].
Qed.

(** The table after [insert(key, value)] on a fresh table, and the place of
    the one entry it holds. *)
Lemma fresh_insert key value :
  let i := hash key mod 10 in
  let t1 := set_slot thread_safe_hash_table_ctor i (Bucket.Build [(key, value)]) in
  insert hash thread_safe_hash_table_ctor key value = Ok t1
  ∧ slots_intact t1
  ∧ data t1 !! N.to_nat i = Some (Bucket.Build [(key, value)])
  ∧ get_value hash t1 key = Ok (Some (Ref i 0))
  ∧ deref t1 (Ref i 0) = Some value.
Proof.
  intros i t1.
  pose proof (ctor_slot key) as Hb. change (buckets_count _) with 10 in Hb.
  assert (Ht1 : slots_intact t1) by apply set_slot_intact, ctor_intact.
  assert (Hb1 : data t1 !! N.to_nat i = Some (Bucket.Build [(key, value)]))
    by exact (set_slot_lookup _ _ _ _ Hb).
  split_and!; [|done|done| |].
  - exact (insert_routed hash _ key value _ ctor_intact Hb).
  - rewrite (get_value_routed hash t1 key _ Ht1 Hb1).
    unfold Bucket.get_value, Bucket.find_if. simpl. by rewrite decide_True.
  - unfold deref. simpl ref_slot. rewrite Hb1. reflexivity.
Qed.
End fresh_table.

(** ** The strict accessor [at] *)

(** Had [at] reached the bucket the way [operator[]] does, with
    [data[index].get_value(...)], it would return the place of the first
    match or raise [std::out_of_range]. *)
Lemma at_with_direct_member {K V : Type} `{EqDecision K} (hash : K → N)
    (t : thread_safe_hash_table K V) (key : K) (b : Bucket.t K V) :
  slots_intact t →
  data t !! N.to_nat (hash key mod buckets_count t) = Some b →
  at_with hash (Some (λ b, b)) t key
  = Some (match Bucket.find_if b key with
          | None => OutOfRange "Key doesn't exist"
          | Some p => Ok (Ref (hash key mod buckets_count t) p)
          end).
Proof.
  intros Ht Hb. unfold at_with.
  rewrite (get_index_by_key_intact _ _ _ Ht). simpl.
  by rewrite (slot_Some _ _ _ Hb).
Qed.

(** C1 (the code departs from the claim).  The claim wants [at(key)] to look
    the key up in the bucket of its hash and to return the first match or
    fail with "key not found".  The body of [at] reaches the bucket with
    [data[index]->get_value(...)], and [Bucket] has no [operator->]: for
    every table and key [at] has no instantiation at all.  On the table made
    by [insert("a", 1)] the lookup [operator[]] performs finds the value 1,
    while [at("a")] neither returns it nor raises. *)
Theorem at_member_access_has_no_instantiation :
  (∀ (K V : Type) `(EqDecision K) (hash : K → N)
     (t : thread_safe_hash_table K V) (key : K), at_ hash t key = None)
  ∧ (∀ hash : string → N, ∃ t1 r,
       insert hash (@thread_safe_hash_table_ctor string Z) "a"%string 1%Z = Ok t1
       ∧ get_value hash t1 "a"%string = Ok (Some r)
       ∧ deref t1 r = Some 1%Z
       ∧ at_ hash t1 "a"%string = None).
Proof.
  split; [reflexivity|]. intros hash.
  destruct (fresh_insert hash "a"%string 1%Z) as (Hi & _ & _ & Hg & Hd).
  eexists _, _. split_and!; [exact Hi|exact Hg|exact Hd|reflexivity].
Qed.

(** ** The default accessor [operator[]] *)

(** C2.  On a table that still has its slots, for a key stored nowhere in
    the table, [operator[](key)] appends the entry [(key, V())] to the
    key's bucket and returns a reference to that new entry, which reads
    [V()]; a second [operator[](key)] changes nothing and returns the same
    reference. *)
Theorem operator_index_default_round_trip
    {K V : Type} `{EqDecision K} (hash : K → N) (V_default : V)
    (t : thread_safe_hash_table K V) (key : K) :
  slots_intact t →
  key_absent t key →
  ∃ t1 r b,
    operator_index hash V_default t key = Ok (t1, r)
    ∧ data t !! N.to_nat (hash key mod buckets_count t) = Some b
    ∧ data t1 !! N.to_nat (hash key mod buckets_count t)
      = Some (Bucket.Build (Bucket.data b ++ [(key, V_default)]))
    ∧ r = Ref (hash key mod buckets_count t) (length (Bucket.data b))
    ∧ deref t1 r = Some V_default
    ∧ operator_index hash V_default t1 key = Ok (t1, r).
Proof.
  intros Ht Ha.
  destruct (target_bucket hash t key Ht) as [b Hb].
  pose proof (key_absent_bucket t key _ b Ha Hb) as Hmiss.
  set (i := hash key mod buckets_count t) in *.
  set (t1 := set_slot t i (Bucket.insert b key V_default)).
  assert (Hb1 : data t1 !! N.to_nat i = Some (Bucket.insert b key V_default))
    by exact (set_slot_lookup _ _ _ _ Hb).
  exists t1, (Ref i (length (Bucket.data b))), b.
  split_and!; [|done|done|done| |].
  - by apply operator_index_miss.
  - unfold deref. simpl ref_slot. rewrite Hb1. simpl.
    apply value_at_insert_last.
  - assert (Ht1 : slots_intact t1) by by apply set_slot_intact.
    change i with (hash key mod buckets_count t1).
    apply (operator_index_hit hash V_default t1 key _ _ Ht1 Hb1).
    by apply find_if_push_back_hit.
Qed.

Lemma operator_index_default_round_trip_witness :
  ∃ t1 r b,
    operator_index (λ _ : string, 7) 0%Z
      (@thread_safe_hash_table_ctor string Z) "k"%string = Ok (t1, r)
    ∧ data (@thread_safe_hash_table_ctor string Z) !! N.to_nat (7 mod 10) = Some b
    ∧ data t1 !! N.to_nat (7 mod 10)
      = Some (Bucket.Build (Bucket.data b ++ [("k"%string, 0%Z)]))
    ∧ r = Ref (7 mod 10) (length (Bucket.data b))
    ∧ deref t1 r = Some 0%Z
    ∧ operator_index (λ _ : string, 7) 0%Z t1 "k"%string = Ok (t1, r).
Proof.
  apply (operator_index_default_round_trip (λ _ : string, 7) 0%Z
           (@thread_safe_hash_table_ctor string Z) "k"%string).
  - compute_done.
  - compute_done.
Defined.

(** ** [clear] and [bucket_count] *)

(** C3.  [clear()] empties the vector of buckets itself.  On a table that had
    its [buckets_count] slots the slot count afterwards differs from
    [buckets_count]; [bucket_count()] still answers the old count (10 for a
    table that came from the constructor); and every keyed call computes an
    index into the now empty vector, which is out of bounds. *)
Theorem clear_discards_slot_sequence
    {K V : Type} `{EqDecision K} (hash : K → N) (V_default : V)
    (t : thread_safe_hash_table K V) :
  slots_intact t →
  data (clear t) = []
  ∧ length (data (clear t)) ≠ N.to_nat (buckets_count (clear t))
  ∧ ¬ slots_intact (clear t)
  ∧ bucket_count (clear t) = bucket_count t
  ∧ bucket_count (clear (@thread_safe_hash_table_ctor K V)) = 10
  ∧ (∀ key, ∃ index,
       get_index_by_key hash (clear t) key = Ok index
       ∧ data (clear t) !! N.to_nat index = None
       ∧ slot (clear t) index = Undefined)
  ∧ (∀ key value, insert hash (clear t) key value = Undefined)
  ∧ (∀ key args, emplace hash V_default (clear t) key args = Undefined)
  ∧ (∀ key, erase hash (clear t) key = Undefined)
  ∧ (∀ key, get_value hash (clear t) key = Undefined)
  ∧ (∀ key, operator_index hash V_default (clear t) key = Undefined).
Proof.
  intros [Hn Hl].
  assert (Hidx : ∀ key, get_index_by_key hash (clear t) key
                        = Ok (hash key mod buckets_count t)).
  { intros key. unfold get_index_by_key. simpl. by rewrite decide_False. }
  split_and!; try done.
  - simpl. lia.
  - intros [_ Hl']. simpl in Hl'. lia.
  - intros key. eexists. split; [apply Hidx|]. done.
  - intros key value. unfold insert. by rewrite Hidx.
  - intros key args. unfold emplace. by rewrite Hidx.
  - intros key. unfold erase. by rewrite Hidx.
  - intros key. unfold get_value. by rewrite Hidx.
  - intros key. unfold operator_index. by rewrite Hidx.
Qed.

Lemma clear_discards_slot_sequence_witness :
  data (clear (@thread_safe_hash_table_ctor string Z)) = []
  ∧ length (data (clear (@thread_safe_hash_table_ctor string Z))) ≠ 10%nat
  ∧ bucket_count (clear (@thread_safe_hash_table_ctor string Z)) = 10
  ∧ insert (λ _ : string, 7) (clear thread_safe_hash_table_ctor) "k"%string 1%Z
    = Undefined.
Proof.
  destruct (clear_discards_slot_sequence (λ _ : string, 7) 0%Z
              (@thread_safe_hash_table_ctor string Z))
    as (Hd & Hl & _ & _ & Hc & _ & Hins & _).
  - compute_done.
  - split_and!; [exact Hd|exact Hl|exact Hc|apply Hins].
Defined.

(** ** Scenarios on a fresh table, for any key type, value type and hash *)

Section scenarios.
Context {K V : Type} `{EqDecision K}.
Variable hash : K → N.
Implicit Types (key : K) (v : V) (t : thread_safe_hash_table K V).

(** What the keyed calls do to a table whose target bucket holds exactly the
    entries [l]. *)
Lemma bucket_insert_at t key v l :
  slots_intact t →
  data t !! N.to_nat (hash key mod buckets_count t) = Some (Bucket.Build l) →
  let t' := set_slot t (hash key mod buckets_count t) (Bucket.Build (l ++ [(key, v)])) in
  insert hash t key v = Ok t'
  ∧ slots_intact t'
  ∧ data t' !! N.to_nat (hash key mod buckets_count t') = Some (Bucket.Build (l ++ [(key, v)])).
Proof.
  intros Ht Hb t'. split_and!.
  - exact (insert_routed hash t key v _ Ht Hb).
  - by apply set_slot_intact.
  - exact (set_slot_lookup _ _ _ _ Hb).
Qed.

Lemma bucket_first_match t key v l :
  slots_intact t →
  data t !! N.to_nat (hash key mod buckets_count t) = Some (Bucket.Build ((key, v) :: l)) →
  let t' := set_slot t (hash key mod buckets_count t) (Bucket.Build l) in
  get_value hash t key = Ok (Some (Ref (hash key mod buckets_count t) 0))
  ∧ deref t (Ref (hash key mod buckets_count t) 0) = Some v
  ∧ erase hash t key = Ok t'
  ∧ slots_intact t'
  ∧ data t' !! N.to_nat (hash key mod buckets_count t') = Some (Bucket.Build l).
Proof.
  intros Ht Hb t'. split_and!.
  - rewrite (get_value_routed hash t key _ Ht Hb). by scan_bucket.
  - unfold deref. simpl ref_slot. by rewrite Hb.
  - rewrite (erase_routed hash t key _ Ht Hb). by scan_bucket.
  - by apply set_slot_intact.
  - exact (set_slot_lookup _ _ _ _ Hb).
Qed.

Lemma bucket_no_match t key :
  slots_intact t →
  data t !! N.to_nat (hash key mod buckets_count t) = Some (Bucket.Build []) →
  get_value hash t key = Ok None.
Proof. intros Ht Hb. by rewrite (get_value_routed hash t key _ Ht Hb). Qed.

Lemma crud_scenario key v :
  ∃ t1 r t2,
    insert hash thread_safe_hash_table_ctor key v = Ok t1
    ∧ get_value hash t1 key = Ok (Some r)
    ∧ deref t1 r = Some v
    ∧ erase hash t1 key = Ok t2
    ∧ get_value hash t2 key = Ok None.
Proof.
  destruct (bucket_insert_at thread_safe_hash_table_ctor key v []
              ctor_intact (ctor_slot hash key)) as (Hi & Ht1 & Hb1).
  destruct (bucket_first_match _ key v [] Ht1 Hb1) as (Hg & Hd & He & Ht2 & Hb2).
  eexists _, _, _. split_and!; [exact Hi|exact Hg|exact Hd|exact He|].
  exact (bucket_no_match _ key Ht2 Hb2).
Qed.

Lemma duplicate_scenario key v1 v2 :
  ∃ t1 t2 r t3 r',
    insert hash thread_safe_hash_table_ctor key v1 = Ok t1
    ∧ insert hash t1 key v2 = Ok t2
    ∧ data t2 !! N.to_nat (hash key mod 10) = Some (Bucket.Build [(key, v1); (key, v2)])
    ∧ get_value hash t2 key = Ok (Some r)
    ∧ ref_pos r = 0%nat
    ∧ deref t2 r = Some v1
    ∧ erase hash t2 key = Ok t3
    ∧ data t3 !! N.to_nat (hash key mod 10) = Some (Bucket.Build [(key, v2)])
    ∧ get_value hash t3 key = Ok (Some r')
    ∧ deref t3 r' = Some v2.
Proof.
  destruct (bucket_insert_at thread_safe_hash_table_ctor key v1 []
              ctor_intact (ctor_slot hash key)) as (Hi1 & Ht1 & Hb1).
  destruct (bucket_insert_at _ key v2 _ Ht1 Hb1) as (Hi2 & Ht2 & Hb2).
  destruct (bucket_first_match _ key v1 _ Ht2 Hb2) as (Hg2 & Hd2 & He & Ht3 & Hb3).
  destruct (bucket_first_match _ key v2 _ Ht3 Hb3) as (Hg3 & Hd3 & _).
  eexists _, _, _, _, _.
  split_and!; [exact Hi1|exact Hi2|exact Hb2|exact Hg2|done|exact Hd2|exact He
              |exact Hb3|exact Hg3|exact Hd3].
Qed.
End scenarios.

(** ** Lookups, duplicates and erase *)

(** C4.  On a fresh table, for any hash function: after [insert("a", 1)] the
    lookup of ["a"] finds the value 1 (and [operator[]] returns that same
    entry without touching the table); after [erase("a")] the lookup of
    ["a"] finds nothing.  In general, on a table that still has its slots,
    the lookup of a key stored nowhere in the table answers "absent" (a null
    pointer): it returns no value at all, and leaves the table alone. *)
Theorem basic_crud_round_trip :
  (∀ hash : string → N, ∃ t1 r t2,
     insert hash (@thread_safe_hash_table_ctor string Z) "a"%string 1%Z = Ok t1
     ∧ get_value hash t1 "a"%string = Ok (Some r)
     ∧ deref t1 r = Some 1%Z
     ∧ operator_index hash 0%Z t1 "a"%string = Ok (t1, r)
     ∧ erase hash t1 "a"%string = Ok t2
     ∧ get_value hash t2 "a"%string = Ok None)
  ∧ (∀ (K V : Type) `(EqDecision K) (hash : K → N)
       (t : thread_safe_hash_table K V) (key : K),
       slots_intact t → key_absent t key → get_value hash t key = Ok None).
Proof.
  split.
  - intros hash.
    destruct (crud_scenario hash "a"%string 1%Z)
      as (t1 & r & t2 & Hi & Hg & Hd & He & Hg2).
    exists t1, r, t2.
    split_and!; [exact Hi|exact Hg|exact Hd| |exact He|exact Hg2].
    by apply operator_index_found.
  - intros K V ? hash t key Ht Ha.
    destruct (target_bucket hash t key Ht) as [b Hb].
    rewrite (get_value_routed hash t key b Ht Hb).
    unfold Bucket.get_value. by rewrite (key_absent_bucket t key _ b Ha Hb).
Qed.

Lemma basic_crud_round_trip_witness :
  get_value (λ _ : string, 7) (@thread_safe_hash_table_ctor string Z) "a"%string
  = Ok None.
Proof.
  apply (proj2 basic_crud_round_trip).
  - compute_done.
  - compute_done.
Defined.

(** C5.  [insert] appends [(key, value)] to the key's bucket whatever the
    bucket already holds, with no test for an equal key.  On a fresh table,
    for any hash function: after [insert("a", 1)] and [insert("a", 2)] the
    bucket holds both entries in that order and the lookup of ["a"] finds
    the first one, of value 1; [erase("a")] removes that first entry only,
    the bucket then holds the one entry [("a", 2)], and the lookup of ["a"]
    finds the value 2. *)
Theorem duplicate_keys_first_match :
  (∀ (K V : Type) (hash : K → N) (t : thread_safe_hash_table K V)
     (key : K) (value : V) (b : Bucket.t K V),
     slots_intact t →
     data t !! N.to_nat (hash key mod buckets_count t) = Some b →
     ∃ t', insert hash t key value = Ok t'
           ∧ data t' !! N.to_nat (hash key mod buckets_count t)
             = Some (Bucket.Build (Bucket.data b ++ [(key, value)])))
  ∧ (∀ hash : string → N, ∃ t1 t2 r t3 r',
       insert hash (@thread_safe_hash_table_ctor string Z) "a"%string 1%Z = Ok t1
       ∧ insert hash t1 "a"%string 2%Z = Ok t2
       ∧ data t2 !! N.to_nat (hash "a"%string mod 10)
         = Some (Bucket.Build [("a"%string, 1%Z); ("a"%string, 2%Z)])
       ∧ get_value hash t2 "a"%string = Ok (Some r)
       ∧ ref_pos r = 0%nat
       ∧ deref t2 r = Some 1%Z
       ∧ erase hash t2 "a"%string = Ok t3
       ∧ data t3 !! N.to_nat (hash "a"%string mod 10)
         = Some (Bucket.Build [("a"%string, 2%Z)])
       ∧ get_value hash t3 "a"%string = Ok (Some r')
       ∧ deref t3 r' = Some 2%Z).
Proof.
  split.
  - intros K V hash t key value b Ht Hb. eexists. split.
    + exact (insert_routed hash t key value b Ht Hb).
    + exact (set_slot_lookup _ _ _ _ Hb).
  - intros hash. apply duplicate_scenario.
Qed.

Lemma duplicate_keys_first_match_witness :
  ∃ t', insert (λ _ : string, 7) (@thread_safe_hash_table_ctor string Z) "a"%string 1%Z
        = Ok t'
        ∧ data t' !! N.to_nat (7 mod 10)
          = Some (Bucket.Build (Bucket.data Bucket.empty ++ [("a"%string, 1%Z)])).
Proof.
  apply (proj1 duplicate_keys_first_match string Z (λ _ : string, 7)
           thread_safe_hash_table_ctor "a"%string 1%Z Bucket.empty).
  - compute_done.
  - reflexivity.
Defined.

(** C6, as stated, fails on the table [clear()] leaves behind: it has no
    bucket, so every key is stored nowhere in it, and [erase] indexes past
    the end of the empty vector. *)
Lemma erase_absent_after_clear_counterexample :
  ∃ t1,
    insert (λ _ : string, 7) (@thread_safe_hash_table_ctor string Z) "b"%string 1%Z
    = Ok t1
    ∧ key_absent (clear t1) "a"%string
    ∧ erase (λ _ : string, 7) (clear t1) "a"%string = Undefined
    ∧ erase (λ _ : string, 7) (clear t1) "a"%string ≠ Ok (clear t1).
Proof. eexists. split; [reflexivity|]. split_and!; [compute_done|done|done]. Qed.

(** C6 (amended).  For every table state that still has its [buckets_count]
    slots (every state the constructor and the keyed calls produce, until
    [clear()] is called), [erase(key)] for a key stored nowhere in the table
    returns normally and leaves the table exactly as it was. *)
Theorem erase_absent_is_noop
    {K V : Type} `{EqDecision K} (hash : K → N)
    (t : thread_safe_hash_table K V) (key : K) :
  slots_intact t → key_absent t key → erase hash t key = Ok t.
Proof.
  intros Ht Ha.
  destruct (target_bucket hash t key Ht) as [b Hb].
  rewrite (erase_routed hash t key b Ht Hb).
  rewrite (erase_absent b key (key_absent_bucket t key _ b Ha Hb)).
  by rewrite (set_slot_same _ _ _ Hb).
Qed.

Lemma erase_absent_is_noop_witness :
  ∃ t1, insert (λ _ : string, 7) (@thread_safe_hash_table_ctor string Z) "a"%string 1%Z
        = Ok t1
        ∧ erase (λ _ : string, 7) t1 "b"%string = Ok t1.
Proof.
  eexists. split; [reflexivity|].
  apply (erase_absent_is_noop (λ _ : string, 7)).
  - compute_done.
  - compute_done.
Defined.

(** ** Routing *)



(** ** Frame *)

(** C9.  On a table that still has its slots, each of [insert(k, v)],
    [emplace(k, args...)], [erase(k)] and [operator[](k)] returns normally
    and changes at most the bucket at index [hash(k) % buckets_count]:
    [buckets_count], the number of slots and every other bucket are as
    before, so the lookup of a key that hashes to another index gives the
    same answer, and a reference it returns reads the same value. *)
Theorem cross_bucket_frame
    {K V : Type} `{EqDecision K} (hash : K → N) (V_default : V)
    (t : thread_safe_hash_table K V) (o : keyed_op K V) :
  slots_intact t →
  ∃ t',
    step hash V_default t o = Ok t'
    ∧ buckets_count t' = buckets_count t
    ∧ length (data t') = length (data t)
    ∧ (∀ j : nat, j ≠ N.to_nat (hash (op_key o) mod buckets_count t) →
         data t' !! j = data t !! j)
    ∧ (∀ key' : K,
         hash key' mod buckets_count t ≠ hash (op_key o) mod buckets_count t →
         get_value hash t' key' = get_value hash t key'
         ∧ ∀ r, get_value hash t key' = Ok (Some r) → deref t' r = deref t r).
Proof.
  intros Ht.
  destruct (step_routed hash V_default t o Ht) as [b' Hs].
  set (i := hash (op_key o) mod buckets_count t) in *.
  exists (set_slot t i b'). split_and!; [done|done|apply length_insert| |].
  - intros j Hj. by apply set_slot_lookup_ne.
  - intros key' Hne.
    assert (Hj : N.to_nat (hash key' mod buckets_count t) ≠ N.to_nat i) by lia.
    destruct (target_bucket hash t key' Ht) as [b Hb].
    assert (Hb' : data (set_slot t i b') !! N.to_nat (hash key' mod buckets_count t)
                  = Some b)
      by by rewrite set_slot_lookup_ne.
    rewrite (get_value_routed hash t key' b Ht Hb).
    rewrite (get_value_routed hash (set_slot t i b') key' b
               (set_slot_intact t i b' Ht) Hb').
    split; [done|].
    intros r Hr. destruct (Bucket.get_value b key') as [p|]; [|done].
    injection Hr as <-. unfold deref. simpl ref_slot.
    change (buckets_count (set_slot t i b')) with (buckets_count t).
    by rewrite Hb, Hb'.
Qed.

Lemma cross_bucket_frame_witness :
  ∃ t1 t2,
    insert (λ n : N, n) (@thread_safe_hash_table_ctor N Z) 4 40%Z = Ok t1
    ∧ step (λ n : N, n) 0%Z t1 (OpErase 7) = Ok t2
    ∧ get_value (λ n : N, n) t2 4 = get_value (λ n : N, n) t1 4
    ∧ deref t2 (Ref 4 0) = Some 40%Z.
Proof.
  eexists.
  destruct (cross_bucket_frame (λ n : N, n) 0%Z
              (set_slot (@thread_safe_hash_table_ctor N Z) 4
                 (Bucket.Build [(4, 40%Z)])) (OpErase 7))
    as (t2 & Hs & _ & _ & _ & Hframe); [compute_done|].
  destruct (Hframe 4) as [Hg Hd]; [compute_done|].
  exists t2. split_and!; [reflexivity|exact Hs|exact Hg|].
  rewrite (Hd (Ref 4 0)); reflexivity.
Defined.

(** ** Indexing safety *)

(** C10.  [get_index_by_key] answers [hash(key) % buckets_count], which is
    below [buckets_count].  The constructor makes exactly 10 slots, and any
    sequence of [insert], [emplace], [erase] and [operator[]] calls on a
    constructed table (no [clear]) runs to its end without an out-of-bounds
    access and leaves a table of 10 slots with [buckets_count] 10, in which
    the index of every key again names an existing slot. *)
Theorem indexing_in_bounds_before_clear
    {K V : Type} `{EqDecision K} (hash : K → N) (V_default : V)
    (os : list (keyed_op K V)) :
  ∃ t,
    run hash V_default thread_safe_hash_table_ctor os = Ok t
    ∧ buckets_count t = 10
    ∧ length (data t) = 10%nat
    ∧ ∀ key : K, ∃ index,
        get_index_by_key hash t key = Ok index
        ∧ index = hash key mod buckets_count t
        ∧ index < buckets_count t
        ∧ is_Some (data t !! N.to_nat index)
        ∧ ∃ b, slot t index = Ok b.
Proof.
  destruct (run_intact hash V_default os
              thread_safe_hash_table_ctor ctor_intact) as (t & Hrun & Ht & Hc).
  change (buckets_count thread_safe_hash_table_ctor) with 10 in Hc.
  exists t. split_and!; [done|done| |].
  - destruct Ht as [_ Hl]. rewrite Hl, Hc. reflexivity.
  - intros key. exists (hash key mod buckets_count t).
    destruct (target_bucket hash t key Ht) as [b Hb].
    split_and!; [by apply get_index_by_key_intact|done|by apply index_in_range
                |by exists b|].
    exists b. by apply slot_Some.
Qed.

(** * Further properties of the buckets and of the table *)

(** ** Scans of a bucket *)

Section bucket_scans.
Context {K V : Type} `{EqDecision K}.
Implicit Types (b : Bucket.t K V) (key : K) (value : V) (l : list (K * V)).

Lemma find_if_cons e l key :
  Bucket.find_if (Bucket.Build (e :: l)) key
  = if decide (e.1 = key) then Some 0%nat
    else S <$> Bucket.find_if (Bucket.Build l) key.
Proof.
  unfold Bucket.find_if. simpl. case_decide; [done|].
  by destruct (list_find (λ e0 : Bucket.bucket_data K V, e0.1 = key) l) as [[i x]|].
Qed.

Lemma find_if_value_at l key :
  (Bucket.find_if (Bucket.Build l) key ≫= Bucket.value_at (Bucket.Build l))
  = first_value key l.
Proof.
  induction l as [|e l IH]; [done|].
  rewrite find_if_cons. simpl. case_decide; [done|].
  rewrite <- IH. by destruct (Bucket.find_if (Bucket.Build l) key).
Qed.

Lemma find_if_first_value l key :
  Bucket.find_if (Bucket.Build l) key = None ↔ first_value key l = None.
Proof.
  induction l as [|e l IH]; [done|].
  rewrite find_if_cons. simpl. case_decide; [done|].
  rewrite <- IH. by destruct (Bucket.find_if (Bucket.Build l) key).
Qed.

Lemma erase_remove_first b key :
  Bucket.data (Bucket.erase b key) = remove_first key (Bucket.data b).
Proof.
  destruct b as [l]. simpl.
  induction l as [|e l IH]; [done|].
  unfold Bucket.erase in *. rewrite find_if_cons. simpl.
  case_decide; [done|].
  destruct (Bucket.find_if (Bucket.Build l) key) as [it|]; simpl in *;
    by rewrite <- IH.
Qed.

Lemma first_value_app l key e :
  first_value key (l ++ [e])
  = match first_value key l with
    | Some v => Some v
    | None => if decide (e.1 = key) then Some e.2 else None
    end.
Proof.
  induction l as [|e' l IH]; simpl; [done|].
  by destruct (decide (e'.1 = key)).
Qed.

Lemma first_value_remove_other l key key' :
  key' ≠ key → first_value key' (remove_first key l) = first_value key' l.
Proof.
  intros Hne. induction l as [|e l IH]; simpl; [done|].
  destruct (decide (e.1 = key)) as [->|]; simpl.
  - by rewrite decide_False.
  - by rewrite IH.
Qed.

Lemma remove_first_absent l key :
  first_value key l = None → remove_first key l = l.
Proof.
  induction l as [|e l IH]; simpl; [done|].
  case_decide; [done|]. intros Hn. by rewrite IH.
Qed.

Lemma remove_first_app_last l key value :
  first_value key l = None → remove_first key (l ++ [(key, value)]) = l.
Proof.
  induction l as [|e l IH]; simpl.
  - by rewrite decide_True.
  - case_decide; [done|]. intros Hn. by rewrite IH.
Qed.

Lemma remove_first_split l key :
  (first_value key l = None ∧ remove_first key l = l)
  ∨ ∃ l1 value l2,
      l = l1 ++ (key, value) :: l2
      ∧ Forall (λ e, e.1 ≠ key) l1
      ∧ first_value key l = Some value
      ∧ remove_first key l = l1 ++ l2.
Proof.
  induction l as [|[k v] l IH]; simpl; [by left|].
  destruct (decide (k = key)) as [->|Hk].
  - right. exists [], v, l. by split_and!.
  - destruct IH as [[Hn Hr]|(l1 & value & l2 & -> & Hl1 & Hf & Hr)].
    + left. by rewrite Hr.
    + right. exists ((k, v) :: l1), value, l2. split_and!; [done| |done|].
      * by constructor.
      * by rewrite Hr.
Qed.
End bucket_scans.

(** X1.  [Bucket::erase(key)]: either no entry has the key and the bucket is
    left as it is, or the bucket is [l1 ++ (key, value) :: l2] with no entry
    of [l1] under the key, and it becomes [l1 ++ l2]: exactly the first
    match goes, every other entry stays, in the same order. *)
Theorem bucket_erase_removes_first_match
    {K V : Type} `{EqDecision K} (b : Bucket.t K V) (key : K) :
  (Bucket.get_value b key = None ∧ Bucket.erase b key = b)
  ∨ ∃ l1 value l2,
      Bucket.data b = l1 ++ (key, value) :: l2
      ∧ Forall (λ e, e.1 ≠ key) l1
      ∧ Bucket.data (Bucket.erase b key) = l1 ++ l2
      ∧ S (length (Bucket.data (Bucket.erase b key))) = length (Bucket.data b).
Proof.
  rewrite erase_remove_first. destruct b as [l]. simpl.
  destruct (remove_first_split l key)
    as [[Hn Hr]|(l1 & value & l2 & -> & Hl1 & _ & Hr)].
  - left. apply find_if_first_value in Hn. split; [done|].
    by apply erase_absent.
  - right. exists l1, value, l2. split_and!; [done..|].
    rewrite Hr, !length_app. simpl. lia.
Qed.

(** X2.  [Bucket::get_value(key)]: a null pointer exactly when no entry has
    the key; otherwise the bucket is [l1 ++ (key, value) :: l2] with no
    entry of [l1] under the key, and the pointer is to that [value], the
    first match in storage order. *)
Theorem bucket_get_value_first_match
    {K V : Type} `{EqDecision K} (b : Bucket.t K V) (key : K) :
  (Bucket.get_value b key = None ∧ Forall (λ e, e.1 ≠ key) (Bucket.data b))
  ∨ ∃ l1 value l2,
      Bucket.data b = l1 ++ (key, value) :: l2
      ∧ Forall (λ e, e.1 ≠ key) l1
      ∧ Bucket.get_value b key = Some (length l1)
      ∧ Bucket.value_at b (length l1) = Some value.
Proof.
  destruct b as [l]. unfold Bucket.get_value. simpl.
  induction l as [|[k v] l IH].
  - left. by split.
  - rewrite find_if_cons. simpl.
    destruct (decide (k = key)) as [->|Hk].
    + right. exists [], v, l. by split_and!.
    + destruct IH as [[Hn Hall]|(l1 & value & l2 & -> & Hl1 & Hf & Hv)].
      * left. rewrite Hn. split; [done|]. by constructor.
      * right. exists ((k, v) :: l1), value, l2.
        split_and!; [done|by constructor|by rewrite Hf|done].
Qed.

(** X3.  [Bucket::get_last_element()]: undefined on a bucket without
    entries; on a bucket [l ++ [(key, value)]] it is a reference to that
    last [value], whatever the keys are. *)
Theorem get_last_element_is_back
    {K V : Type} (b : Bucket.t K V) :
  (Bucket.data b = [] ∧ Bucket.get_last_element b = Undefined)
  ∨ ∃ l key value,
      Bucket.data b = l ++ [(key, value)]
      ∧ Bucket.get_last_element b = Ok (length l)
      ∧ Bucket.value_at b (length l) = Some value.
Proof.
  destruct b as [l]. destruct (decide (l = [])) as [->|Hne].
  - by left.
  - right. destruct (exists_last Hne) as (l' & [key value] & ->).
    exists l', key, value. split_and!; [done| |].
    + exact (get_last_element_insert (Bucket.Build l') key value).
    + exact (value_at_insert_last (Bucket.Build l') key value).
Qed.

(** ** One keyed call, seen through the bucket it is routed to *)

Section call_effects.
Context {K V : Type} `{EqDecision K}.
Variable hash : K → N.
Variable V_default : V.
Implicit Types (t : thread_safe_hash_table K V) (b : Bucket.t K V).
Implicit Types (key : K) (value : V) (o : keyed_op K V).
Implicit Types (l : list (K * V)) (e : K * V).

Lemma found_value_routed t key b :
  slots_intact t →
  data t !! N.to_nat (hash key mod buckets_count t) = Some b →
  found_value hash t key = Ok (first_value key (Bucket.data b)).
Proof.
  intros Ht Hb. unfold found_value.
  rewrite (get_value_routed hash t key b Ht Hb). simpl. f_equal.
  destruct b as [l]. pose proof (find_if_value_at l key) as Hfv.
  unfold Bucket.get_value. simpl Bucket.data.
  destruct (Bucket.find_if (Bucket.Build l) key) as [p|]; simpl in *; [|done].
  unfold deref. simpl ref_slot. by rewrite Hb.
Qed.

Lemma step_effect t o b :
  slots_intact t →
  data t !! N.to_nat (hash (op_key o) mod buckets_count t) = Some b →
  step hash V_default t o
  = Ok (set_slot t (hash (op_key o) mod buckets_count t)
          (bucket_effect V_default o b)).
Proof.
  intros Ht Hb. destruct o as [key value|key args|key|key]; simpl in *.
  - exact (insert_routed hash t key value b Ht Hb).
  - exact (emplace_routed hash V_default t key args b Ht Hb).
  - exact (erase_routed hash t key b Ht Hb).
  - destruct (Bucket.get_value b key) as [p|] eqn:Hp.
    + rewrite (operator_index_hit hash V_default t key b p Ht Hb Hp). simpl.
      by rewrite (set_slot_same _ _ _ Hb).
    + by rewrite (operator_index_miss hash V_default t key b Ht Hb Hp).
Qed.

(** The entries of the bucket after the call, as a list. *)
Lemma bucket_effect_data o b :
  Bucket.data (bucket_effect V_default o b)
  = match o with
    | OpInsert key value => Bucket.data b ++ [(key, value)]
    | OpEmplace key args => Bucket.data b ++ [(key, construct V_default args)]
    | OpErase key => remove_first key (Bucket.data b)
    | OpIndex key =>
        match first_value key (Bucket.data b) with
        | Some _ => Bucket.data b
        | None => Bucket.data b ++ [(key, V_default)]
        end
    end.
Proof.
  destruct o as [key value|key args|key|key]; simpl; [done|done| |].
  - apply erase_remove_first.
  - unfold Bucket.get_value. destruct b as [l]. simpl.
    destruct (Bucket.find_if (Bucket.Build l) key) as [p|] eqn:Hp.
    + destruct (first_value key l) eqn:Hf; [done|].
      apply find_if_first_value in Hf. congruence.
    + apply find_if_first_value in Hp. by rewrite Hp.
Qed.

Lemma first_value_elem l key value :
  first_value key l = Some value → (key, value) ∈ l.
Proof.
  induction l as [|[k v] l IH]; simpl; [done|].
  case_decide; simplify_eq/=.
  - intros [= ->]. apply elem_of_cons. by left.
  - intros Hf. apply elem_of_cons. right. by apply IH.
Qed.

Lemma first_value_None l key :
  first_value key l = None ↔ Forall (λ e : K * V, e.1 ≠ key) l.
Proof.
  induction l as [|e l IH]; simpl.
  - split; [constructor|done].
  - case_decide.
    + split; [done|]. intros Hall. by inversion Hall.
    + rewrite IH. split; [by constructor|]. intros Hall. by inversion Hall.
Qed.

Lemma remove_first_subset l key e : e ∈ remove_first key l → e ∈ l.
Proof.
  induction l as [|e' l IH]; simpl; [done|].
  case_decide.
  - intros He. apply elem_of_cons. by right.
  - intros [->|He]%elem_of_cons; apply elem_of_cons; [by left|right; by apply IH].
Qed.

(** An entry of the bucket after the call was there before, or is stored
    under the key of the call. *)
Lemma bucket_effect_elem o b e :
  e ∈ Bucket.data (bucket_effect V_default o b) →
  e ∈ Bucket.data b ∨ e.1 = op_key o.
Proof.
  rewrite bucket_effect_data.
  destruct o as [key value|key args|key|key]; simpl.
  - intros [He|He]%elem_of_app; [by left|].
    apply list_elem_of_singleton in He as ->. by right.
  - intros [He|He]%elem_of_app; [by left|].
    apply list_elem_of_singleton in He as ->. by right.
  - intros He%remove_first_subset. by left.
  - destruct (first_value key (Bucket.data b)); [by left|].
    intros [He|He]%elem_of_app; [by left|].
    apply list_elem_of_singleton in He as ->. by right.
Qed.

Lemma entry_count_set_slot t (i : N) b b' :
  data t !! N.to_nat i = Some b →
  (entry_count (set_slot t i b') + length (Bucket.data b)
   = entry_count t + length (Bucket.data b'))%nat.
Proof.
  intros Hb. unfold entry_count, set_slot. simpl.
  rewrite insert_take_drop by by eapply lookup_lt_Some.
  rewrite <- (take_drop_middle (data t) _ _ Hb) at 3.
  rewrite !sum_list_with_app. simpl. lia.
Qed.
End call_effects.

(** ** Lookups after a call *)

Lemma bucket_ext {K V : Type} (b1 b2 : Bucket.t K V) :
  Bucket.data b1 = Bucket.data b2 → b1 = b2.
Proof. destruct b1, b2. simpl. by intros ->. Qed.

Lemma get_value_first_value {K V : Type} `{EqDecision K} (b : Bucket.t K V) (key : K) :
  Bucket.get_value b key = None ↔ first_value key (Bucket.data b) = None.
Proof. destruct b as [l]. apply find_if_first_value. Qed.

(** X4.  [insert] never overwrites: on a table that still has its slots,
    [insert(key, value)] succeeds, and afterwards the lookup of [key] finds
    the value it found before if there was one, and [value] only if the key
    was not found before. *)
Theorem insert_never_overwrites
    {K V : Type} `{EqDecision K} (hash : K → N)
    (t : thread_safe_hash_table K V) (key : K) (value : V) :
  slots_intact t →
  ∃ t' old,
    insert hash t key value = Ok t'
    ∧ found_value hash t key = Ok old
    ∧ found_value hash t' key
      = Ok (Some (match old with Some v0 => v0 | None => value end)).
Proof.
  intros Ht. destruct (target_bucket hash t key Ht) as [b Hb].
  set (i := hash key mod buckets_count t) in *.
  exists (set_slot t i (Bucket.insert b key value)), (first_value key (Bucket.data b)).
  split_and!.
  - exact (insert_routed hash t key value b Ht Hb).
  - exact (found_value_routed hash t key b Ht Hb).
  - rewrite (found_value_routed hash (set_slot t i (Bucket.insert b key value)) key
               (Bucket.insert b key value) (set_slot_intact t i _ Ht)
               (set_slot_lookup t i _ b Hb)).
    simpl. rewrite first_value_app. simpl.
    destruct (first_value key (Bucket.data b)); [done|]. by rewrite decide_True.
Qed.

Lemma insert_never_overwrites_witness :
  ∃ t1 t2,
    insert (λ n : N, n) (@thread_safe_hash_table_ctor N Z) 5 50%Z = Ok t1
    ∧ insert (λ n : N, n) t1 5 51%Z = Ok t2
    ∧ found_value (λ n : N, n) t2 5 = Ok (Some 50%Z).
Proof.
  eexists.
  destruct (insert_never_overwrites (λ n : N, n)
              (set_slot (@thread_safe_hash_table_ctor N Z) 5
                 (Bucket.Build [(5, 50%Z)])) 5 51%Z)
    as (t2 & old & Hi & Ho & Hf); [compute_done|].
  exists t2. split_and!; [reflexivity|exact Hi|].
  rewrite Hf. vm_compute in Ho. by injection Ho as <-.
Defined.

(** X5.  [operator[]] on a table that still has its slots, for any key,
    present or not: it succeeds; the reference it returns is the one the
    lookup of the key finds in the resulting table; it reads the value found
    before the call, or [V()] if none was found; a present key leaves the
    table as it was; and repeating the call changes nothing and returns the
    same reference. *)
Theorem operator_index_returns_what_lookup_finds
    {K V : Type} `{EqDecision K} (hash : K → N) (V_default : V)
    (t : thread_safe_hash_table K V) (key : K) :
  slots_intact t →
  ∃ t1 r old,
    operator_index hash V_default t key = Ok (t1, r)
    ∧ found_value hash t key = Ok old
    ∧ get_value hash t1 key = Ok (Some r)
    ∧ deref t1 r = Some (match old with Some v0 => v0 | None => V_default end)
    ∧ (is_Some old → t1 = t)
    ∧ operator_index hash V_default t1 key = Ok (t1, r).
Proof.
  intros Ht. destruct (target_bucket hash t key Ht) as [b Hb].
  pose proof (found_value_routed hash t key b Ht Hb) as Hold.
  set (i := hash key mod buckets_count t) in *.
  destruct (Bucket.get_value b key) as [p|] eqn:Hp.
  - assert (Hg : get_value hash t key = Ok (Some (Ref i p)))
      by by rewrite (get_value_routed hash t key b Ht Hb), Hp.
    assert (Hd : deref t (Ref i p) = first_value key (Bucket.data b)).
    { unfold found_value in Hold. rewrite Hg in Hold. simpl in Hold.
      by injection Hold. }
    destruct (first_value key (Bucket.data b)) as [v0|] eqn:Hf.
    + exists t, (Ref i p), (Some v0). split_and!; [|done..|].
      * exact (operator_index_hit hash V_default t key b p Ht Hb Hp).
      * exact (operator_index_hit hash V_default t key b p Ht Hb Hp).
    + apply get_value_first_value in Hf. by rewrite Hp in Hf.
  - assert (Hf : first_value key (Bucket.data b) = None).
    { by apply get_value_first_value. }
    rewrite Hf in Hold.
    set (t1 := set_slot t i (Bucket.insert b key V_default)).
    assert (Ht1 : slots_intact t1) by by apply set_slot_intact.
    assert (Hb1 : data t1 !! N.to_nat (hash key mod buckets_count t1)
                  = Some (Bucket.insert b key V_default))
      by exact (set_slot_lookup _ _ _ _ Hb).
    assert (Hp1 : Bucket.get_value (Bucket.insert b key V_default) key
                  = Some (length (Bucket.data b)))
      by by apply find_if_push_back_hit.
    exists t1, (Ref i (length (Bucket.data b))), None.
    split_and!; [|done| | |by intros [? [=]]|].
    + exact (operator_index_miss hash V_default t key b Ht Hb Hp).
    + by rewrite (get_value_routed hash t1 key _ Ht1 Hb1), Hp1.
    + unfold deref. simpl ref_slot. fold i in Hb1.
      change (buckets_count t1) with (buckets_count t) in Hb1. fold i in Hb1.
      rewrite Hb1. simpl. apply value_at_insert_last.
    + exact (operator_index_hit hash V_default t1 key _ _ Ht1 Hb1 Hp1).
Qed.

Lemma operator_index_returns_what_lookup_finds_witness :
  ∃ t1 r,
    operator_index (λ n : N, n) 0%Z
      (set_slot (@thread_safe_hash_table_ctor N Z) 5 (Bucket.Build [(15, 7%Z); (5, 9%Z)]))
      5 = Ok (t1, r)
    ∧ get_value (λ n : N, n) t1 5 = Ok (Some r)
    ∧ deref t1 r = Some 9%Z.
Proof.
  destruct (operator_index_returns_what_lookup_finds (λ n : N, n) 0%Z
              (set_slot (@thread_safe_hash_table_ctor N Z) 5
                 (Bucket.Build [(15, 7%Z); (5, 9%Z)])) 5)
    as (t1 & r & old & Hi & Ho & Hg & Hd & _); [compute_done|].
  exists t1, r. split_and!; [exact Hi|exact Hg|].
  rewrite Hd. vm_compute in Ho. by injection Ho as <-.
Defined.

(** ** [insert] followed by [erase] *)

Lemma set_slot_twice {K V : Type} (t : thread_safe_hash_table K V) (i : N)
    (b1 b2 : Bucket.t K V) :
  set_slot (set_slot t i b1) i b2 = set_slot t i b2.
Proof. unfold set_slot. simpl. by rewrite list_insert_insert_eq. Qed.

(** X6.  On a table that still has its slots, if the lookup of [key] finds
    nothing, then [insert(key, value)] followed by [erase(key)] gives back
    exactly the table one started from. *)
Theorem insert_then_erase_restores
    {K V : Type} `{EqDecision K} (hash : K → N)
    (t : thread_safe_hash_table K V) (key : K) (value : V) :
  slots_intact t →
  found_value hash t key = Ok None →
  ∃ t1, insert hash t key value = Ok t1 ∧ erase hash t1 key = Ok t.
Proof.
  intros Ht Hmiss. destruct (target_bucket hash t key Ht) as [b Hb].
  rewrite (found_value_routed hash t key b Ht Hb) in Hmiss.
  injection Hmiss as Hf.
  set (i := hash key mod buckets_count t) in *.
  exists (set_slot t i (Bucket.insert b key value)). split.
  - exact (insert_routed hash t key value b Ht Hb).
  - rewrite (erase_routed hash (set_slot t i (Bucket.insert b key value)) key
               (Bucket.insert b key value) (set_slot_intact t i _ Ht)
               (set_slot_lookup t i _ b Hb)).
    f_equal. change (buckets_count (set_slot t i _)) with (buckets_count t).
    fold i. rewrite set_slot_twice.
    rewrite (bucket_ext (Bucket.erase (Bucket.insert b key value) key) b).
    + by apply set_slot_same.
    + rewrite erase_remove_first. simpl. by apply remove_first_app_last.
Qed.

Lemma insert_then_erase_restores_witness :
  ∃ t1,
    insert (λ n : N, n)
      (set_slot (@thread_safe_hash_table_ctor N Z) 5 (Bucket.Build [(15, 7%Z)]))
      5 9%Z = Ok t1
    ∧ erase (λ n : N, n) t1 5
      = Ok (set_slot (@thread_safe_hash_table_ctor N Z) 5 (Bucket.Build [(15, 7%Z)])).
Proof.
  apply (insert_then_erase_restores (λ n : N, n)); compute_done.
Defined.

(** X7.  When the key is already stored, [erase] after [insert] does not
    undo the insert: on a table that still has its slots whose lookup of
    [key] finds [v0], the key's bucket is [l1 ++ (key, v0) :: l2] with no
    entry of [l1] under the key, and after [insert(key, value)] and
    [erase(key)] it is [l1 ++ l2 ++ [(key, value)]]: the older entry went,
    the new one stayed. *)
Theorem erase_after_insert_removes_older_entry
    {K V : Type} `{EqDecision K} (hash : K → N)
    (t : thread_safe_hash_table K V) (key : K) (value v0 : V) :
  slots_intact t →
  found_value hash t key = Ok (Some v0) →
  ∃ t1 t2 b b2 l1 l2,
    insert hash t key value = Ok t1
    ∧ erase hash t1 key = Ok t2
    ∧ data t !! N.to_nat (hash key mod buckets_count t) = Some b
    ∧ Bucket.data b = l1 ++ (key, v0) :: l2
    ∧ Forall (λ e, e.1 ≠ key) l1
    ∧ data t2 !! N.to_nat (hash key mod buckets_count t) = Some b2
    ∧ Bucket.data b2 = l1 ++ l2 ++ [(key, value)].
Proof.
  intros Ht Hhit. destruct (target_bucket hash t key Ht) as [b Hb].
  rewrite (found_value_routed hash t key b Ht Hb) in Hhit.
  injection Hhit as Hf.
  set (i := hash key mod buckets_count t) in *.
  set (t1 := set_slot t i (Bucket.insert b key value)).
  assert (Ht1 : slots_intact t1) by by apply set_slot_intact.
  assert (Hb1 : data t1 !! N.to_nat i = Some (Bucket.insert b key value))
    by exact (set_slot_lookup t i _ b Hb).
  destruct (remove_first_split (Bucket.data b) key)
    as [[Hn _]|(l1 & v & l2 & Hsplit & Hl1 & Hv & Hr)]; [congruence|].
  assert (v = v0) as -> by congruence.
  exists t1, (set_slot t1 i (Bucket.erase (Bucket.insert b key value) key)), b,
    (Bucket.erase (Bucket.insert b key value) key), l1, l2.
  split_and!; [| |done|done|done| |].
  - exact (insert_routed hash t key value b Ht Hb).
  - exact (erase_routed hash t1 key _ Ht1 Hb1).
  - exact (set_slot_lookup t1 i _ _ Hb1).
  - rewrite erase_remove_first. simpl. rewrite Hsplit.
    rewrite <- app_assoc. simpl.
    clear Hsplit Hr Hv. induction l1 as [|e l1 IH]; simpl.
    + by rewrite decide_True.
    + inversion Hl1 as [|? ? He Hl1']; subst.
      rewrite decide_False by done. by rewrite IH.
Qed.

Lemma erase_after_insert_removes_older_entry_witness :
  ∃ t1 t2 b2,
    insert (λ n : N, n)
      (set_slot (@thread_safe_hash_table_ctor N Z) 5 (Bucket.Build [(15, 7%Z); (5, 8%Z)]))
      5 9%Z = Ok t1
    ∧ erase (λ n : N, n) t1 5 = Ok t2
    ∧ data t2 !! 5%nat = Some b2
    ∧ Bucket.data b2 = [(15, 7%Z); (5, 9%Z)].
Proof.
  destruct (erase_after_insert_removes_older_entry (λ n : N, n)
              (set_slot (@thread_safe_hash_table_ctor N Z) 5
                 (Bucket.Build [(15, 7%Z); (5, 8%Z)])) 5 9%Z 8%Z)
    as (t1 & t2 & b & b2 & l1 & l2 & Hi & He & Hb & Hs & Hl1 & Hb2 & Hd);
    [compute_done|compute_done|].
  exists t1, t2, b2. split_and!; [exact Hi|exact He|exact Hb2|].
  vm_compute in Hi. injection Hi as <-.
  vm_compute in He. injection He as <-.
  vm_compute in Hb2. by injection Hb2 as <-.
Defined.

(** ** Other keys *)

(** X8.  On a table that still has its slots, none of [insert], [emplace],
    [erase] and [operator[]] called with one key changes the value a lookup
    finds for any other key, whether the two keys share a bucket or not. *)
Theorem keyed_call_keeps_other_keys
    {K V : Type} `{EqDecision K} (hash : K → N) (V_default : V)
    (t : thread_safe_hash_table K V) (o : keyed_op K V) (key' : K) :
  slots_intact t →
  key' ≠ op_key o →
  ∃ t', step hash V_default t o = Ok t'
        ∧ found_value hash t' key' = found_value hash t key'.
Proof.
  intros Ht Hne.
  destruct (target_bucket hash t (op_key o) Ht) as [b Hb].
  destruct (target_bucket hash t key' Ht) as [b' Hb'].
  set (i := hash (op_key o) mod buckets_count t) in *.
  set (t' := set_slot t i (bucket_effect V_default o b)).
  assert (Ht' : slots_intact t') by by apply set_slot_intact.
  exists t'. split; [exact (step_effect hash V_default t o b Ht Hb)|].
  rewrite (found_value_routed hash t key' b' Ht Hb').
  destruct (decide (hash key' mod buckets_count t = i)) as [Heq|Hslot].
  - rewrite Heq in Hb'. assert (b' = b) as -> by congruence.
    rewrite (found_value_routed hash t' key'
               (bucket_effect V_default o b) Ht').
    2:{ change (buckets_count t') with (buckets_count t). rewrite Heq.
        exact (set_slot_lookup t i _ b Hb). }
    f_equal. rewrite bucket_effect_data.
    destruct o as [key value|key args|key|key]; simpl in *.
    + rewrite first_value_app. simpl. rewrite decide_False by done.
      by destruct (first_value key' (Bucket.data b)).
    + rewrite first_value_app. simpl. rewrite decide_False by done.
      by destruct (first_value key' (Bucket.data b)).
    + by apply first_value_remove_other.
    + destruct (first_value key (Bucket.data b)); [done|].
      rewrite first_value_app. simpl. rewrite decide_False by done.
      by destruct (first_value key' (Bucket.data b)).
  - rewrite (found_value_routed hash t' key' b' Ht'); [done|].
    change (buckets_count t') with (buckets_count t).
    rewrite <- Hb'. apply set_slot_lookup_ne. lia.
Qed.

Lemma keyed_call_keeps_other_keys_witness :
  ∃ t',
    step (λ n : N, n) 0%Z
      (set_slot (@thread_safe_hash_table_ctor N Z) 5 (Bucket.Build [(15, 7%Z); (5, 8%Z)]))
      (OpErase 15) = Ok t'
    ∧ found_value (λ n : N, n) t' 5 = Ok (Some 8%Z).
Proof.
  destruct (keyed_call_keeps_other_keys (λ n : N, n) 0%Z
              (set_slot (@thread_safe_hash_table_ctor N Z) 5
                 (Bucket.Build [(15, 7%Z); (5, 8%Z)])) (OpErase 15) 5)
    as (t' & Hs & Hf); [compute_done|compute_done|].
  exists t'. split; [exact Hs|]. rewrite Hf. reflexivity.
Defined.

(** ** Placement of the entries *)

Section placement.
Context {K V : Type} `{EqDecision K}.
Variable hash : K → N.
Variable V_default : V.
Implicit Types (t : thread_safe_hash_table K V) (o : keyed_op K V).

Lemma ctor_well_placed : well_placed hash (@thread_safe_hash_table_ctor K V).
Proof.
  intros j b e Hb He. apply list_elem_of_lookup_2 in Hb.
  change (b ∈ replicate (N.to_nat 10) (@Bucket.empty K V)) in Hb.
  apply elem_of_replicate in Hb as [-> _]. by apply elem_of_nil in He.
Qed.

Lemma step_well_placed t o :
  slots_intact t → well_placed hash t →
  ∃ t', step hash V_default t o = Ok t'
        ∧ slots_intact t' ∧ well_placed hash t'.
Proof.
  intros Ht Hw. destruct (target_bucket hash t (op_key o) Ht) as [b Hb].
  set (i := hash (op_key o) mod buckets_count t) in *.
  exists (set_slot t i (bucket_effect V_default o b)).
  split; [exact (step_effect hash V_default t o b Ht Hb)|].
  split; [by apply set_slot_intact|].
  intros j b' e Hb' He. simpl buckets_count.
  destruct (decide (j = N.to_nat i)) as [->|Hj].
  - rewrite (set_slot_lookup t i _ b Hb) in Hb'. injection Hb' as <-.
    apply bucket_effect_elem in He as [He|He].
    + exact (Hw _ b e Hb He).
    + by rewrite He.
  - rewrite set_slot_lookup_ne in Hb' by done. exact (Hw j b' e Hb' He).
Qed.

Lemma run_well_placed os : ∀ t,
  slots_intact t → well_placed hash t →
  ∃ t', run hash V_default t os = Ok t'
        ∧ slots_intact t' ∧ well_placed hash t'.
Proof.
  induction os as [|o os IH]; intros t Ht Hw; simpl.
  - by exists t.
  - destruct (step_well_placed t o Ht Hw) as (t1 & -> & Ht1 & Hw1). simpl.
    exact (IH t1 Ht1 Hw1).
Qed.

Lemma well_placed_miss t key :
  slots_intact t → well_placed hash t →
  (found_value hash t key = Ok None ↔ key_absent t key).
Proof.
  intros Ht Hw. destruct (target_bucket hash t key Ht) as [b Hb].
  rewrite (found_value_routed hash t key b Ht Hb). split.
  - intros [= Hf]. apply first_value_None in Hf.
    apply Forall_lookup. intros j b' Hb'. apply Forall_forall. intros e He Hk.
    pose proof (Hw j b' e Hb' He) as Hj. rewrite Hk in Hj. subst j.
    assert (b' = b) as -> by congruence.
    rewrite Forall_forall in Hf. by apply (Hf e He).
  - intros Ha. f_equal. apply first_value_None.
    exact (Forall_lookup_1 _ _ _ _ Ha Hb).
Qed.
End placement.

(** X9.  Every sequence of [insert], [emplace], [erase] and [operator[]]
    calls on a constructed table runs to its end and leaves every stored
    entry in the slot [hash(key) % buckets_count] of its own key. *)
Theorem entries_stay_in_their_slot
    {K V : Type} `{EqDecision K} (hash : K → N) (V_default : V)
    (os : list (keyed_op K V)) :
  ∃ t,
    run hash V_default thread_safe_hash_table_ctor os = Ok t
    ∧ ∀ (j : nat) b key value,
        data t !! j = Some b → (key, value) ∈ Bucket.data b →
        N.to_nat (hash key mod buckets_count t) = j.
Proof.
  destruct (run_well_placed hash V_default os
              thread_safe_hash_table_ctor ctor_intact (ctor_well_placed hash))
    as (t & Hrun & _ & Hw).
  exists t. split; [done|]. intros j b key value Hb He.
  exact (Hw j b (key, value) Hb He).
Qed.

Lemma entries_stay_in_their_slot_witness :
  ∃ t,
    run (λ n : N, n) 0%Z thread_safe_hash_table_ctor
      [OpInsert 23 1%Z; OpIndex 13; OpErase 23] = Ok t
    ∧ N.to_nat (13 mod buckets_count t) = 3%nat.
Proof.
  destruct (entries_stay_in_their_slot (λ n : N, n) 0%Z
              [OpInsert 23 1%Z; OpIndex 13; OpErase 23]) as (t & Hrun & Hw).
  exists t. split; [exact Hrun|].
  vm_compute in Hrun. injection Hrun as <-.
  apply (Hw 3%nat (Bucket.Build [(13, 0%Z)]) 13 0%Z); [reflexivity|].
  apply list_elem_of_singleton. reflexivity.
Defined.

(** X10.  In a table reached from the constructor by any sequence of
    [insert], [emplace], [erase] and [operator[]] calls, the lookup of a key
    finds nothing exactly when no bucket of the whole table stores an entry
    under that key: scanning the one bucket of the key's hash misses no
    entry. *)
Theorem lookup_misses_only_absent_keys
    {K V : Type} `{EqDecision K} (hash : K → N) (V_default : V)
    (os : list (keyed_op K V)) (key : K) :
  ∃ t,
    run hash V_default thread_safe_hash_table_ctor os = Ok t
    ∧ (found_value hash t key = Ok None ↔ key_absent t key).
Proof.
  destruct (run_well_placed hash V_default os
              thread_safe_hash_table_ctor ctor_intact (ctor_well_placed hash))
    as (t & Hrun & Ht & Hw).
  exists t. split; [done|]. by apply well_placed_miss.
Qed.

Lemma lookup_misses_only_absent_keys_witness :
  ∃ t,
    run (λ n : N, n) 0%Z thread_safe_hash_table_ctor
      [OpInsert 23 1%Z; OpIndex 13; OpErase 23] = Ok t
    ∧ found_value (λ n : N, n) t 23 = Ok None.
Proof.
  destruct (lookup_misses_only_absent_keys (λ n : N, n) 0%Z
              [OpInsert 23 1%Z; OpIndex 13; OpErase 23] 23) as (t & Hrun & Hiff).
  exists t. split; [exact Hrun|].
  apply Hiff. vm_compute in Hrun. injection Hrun as <-. compute_done.
Defined.

(** ** Calls on different slots *)

(** X11.  On a table that still has its slots, two keyed calls whose keys
    hash to different slots can be made in either order: both orders
    succeed and end in the same table. *)
Theorem calls_on_different_slots_commute
    {K V : Type} `{EqDecision K} (hash : K → N) (V_default : V)
    (t : thread_safe_hash_table K V) (o1 o2 : keyed_op K V) :
  slots_intact t →
  hash (op_key o1) mod buckets_count t ≠ hash (op_key o2) mod buckets_count t →
  ∃ t12,
    run hash V_default t [o1; o2] = Ok t12
    ∧ run hash V_default t [o2; o1] = Ok t12.
Proof.
  intros Ht Hne.
  destruct (target_bucket hash t (op_key o1) Ht) as [b1 Hb1].
  destruct (target_bucket hash t (op_key o2) Ht) as [b2 Hb2].
  set (i1 := hash (op_key o1) mod buckets_count t) in *.
  set (i2 := hash (op_key o2) mod buckets_count t) in *.
  set (e1 := bucket_effect V_default o1 b1).
  set (e2 := bucket_effect V_default o2 b2).
  assert (Hn : N.to_nat i1 ≠ N.to_nat i2) by lia.
  exists (set_slot (set_slot t i1 e1) i2 e2). simpl. split.
  - rewrite (step_effect hash V_default t o1 b1 Ht Hb1). simpl.
    fold i1 e1.
    rewrite (step_effect hash V_default (set_slot t i1 e1) o2 b2
               (set_slot_intact t i1 e1 Ht)).
    + done.
    + change (buckets_count (set_slot t i1 e1)) with (buckets_count t).
      fold i2. rewrite <- Hb2. apply set_slot_lookup_ne. lia.
  - rewrite (step_effect hash V_default t o2 b2 Ht Hb2). simpl.
    fold i2 e2.
    rewrite (step_effect hash V_default (set_slot t i2 e2) o1 b1
               (set_slot_intact t i2 e2 Ht)).
    + simpl. f_equal. unfold set_slot. simpl. f_equal.
      fold i1 e1. apply list_insert_insert_ne. lia.
    + change (buckets_count (set_slot t i2 e2)) with (buckets_count t).
      fold i1. rewrite <- Hb1. apply set_slot_lookup_ne. lia.
Qed.

Lemma calls_on_different_slots_commute_witness :
  ∃ t12,
    run (λ n : N, n) 0%Z (@thread_safe_hash_table_ctor N Z)
      [OpInsert 23 1%Z; OpIndex 14] = Ok t12
    ∧ run (λ n : N, n) 0%Z (@thread_safe_hash_table_ctor N Z)
        [OpIndex 14; OpInsert 23 1%Z] = Ok t12.
Proof.
  apply (calls_on_different_slots_commute (λ n : N, n) 0%Z
           thread_safe_hash_table_ctor (OpInsert 23 1%Z) (OpIndex 14));
    compute_done.
Defined.

(** ** Number of entries *)

Lemma remove_first_length {K V : Type} `{EqDecision K} (key : K) (l : list (K * V)) :
  length (remove_first key l)
  = match first_value key l with
    | Some _ => Nat.pred (length l)
    | None => length l
    end.
Proof.
  induction l as [|e l IH]; simpl; [done|].
  destruct (decide (e.1 = key)); simpl; [done|]. rewrite IH.
  destruct (first_value key l) eqn:Hf; [|done].
  destruct l; [done|]. reflexivity.
Qed.

(** X12.  On a table that still has its slots: [insert] and [emplace] always
    add exactly one entry to the table; [erase] removes exactly one entry if
    the lookup of its key finds a value and none otherwise; [operator[]]
    adds exactly one entry if the lookup of its key finds nothing and none
    otherwise. *)
Theorem entry_count_after_call
    {K V : Type} `{EqDecision K} (hash : K → N) (V_default : V)
    (t : thread_safe_hash_table K V) (o : keyed_op K V) :
  slots_intact t →
  ∃ t' old,
    step hash V_default t o = Ok t'
    ∧ found_value hash t (op_key o) = Ok old
    ∧ match o, old with
      | OpInsert _ _, _ | OpEmplace _ _, _ | OpIndex _, None =>
          entry_count t' = S (entry_count t)
      | OpErase _, Some _ => S (entry_count t') = entry_count t
      | OpErase _, None | OpIndex _, Some _ => entry_count t' = entry_count t
      end.
Proof.
  intros Ht. destruct (target_bucket hash t (op_key o) Ht) as [b Hb].
  set (i := hash (op_key o) mod buckets_count t) in *.
  exists (set_slot t i (bucket_effect V_default o b)),
    (first_value (op_key o) (Bucket.data b)).
  split; [exact (step_effect hash V_default t o b Ht Hb)|].
  split; [exact (found_value_routed hash t (op_key o) b Ht Hb)|].
  pose proof (entry_count_set_slot t i b
                (bucket_effect V_default o b) Hb) as Hc.
  rewrite bucket_effect_data in Hc.
  destruct o as [key value|key args|key|key]; simpl in *.
  - rewrite length_app in Hc. simpl in Hc.
    destruct (first_value key (Bucket.data b)); lia.
  - rewrite length_app in Hc. simpl in Hc.
    destruct (first_value key (Bucket.data b)); lia.
  - rewrite remove_first_length in Hc. unfold Bucket.bucket_data in *.
    revert Hc.
    destruct (first_value key (Bucket.data b)) eqn:Hf; [|lia].
    destruct (Bucket.data b); [done|]. simpl. lia.
  - revert Hc. destruct (first_value key (Bucket.data b)); [lia|].
    rewrite length_app. simpl. lia.
Qed.

Lemma entry_count_after_call_witness :
  ∃ t',
    step (λ n : N, n) 0%Z
      (set_slot (@thread_safe_hash_table_ctor N Z) 5 (Bucket.Build [(15, 7%Z); (5, 8%Z)]))
      (OpErase 5) = Ok t'
    ∧ entry_count t' = 1%nat.
Proof.
  destruct (entry_count_after_call (λ n : N, n) 0%Z
              (set_slot (@thread_safe_hash_table_ctor N Z) 5
                 (Bucket.Build [(15, 7%Z); (5, 8%Z)])) (OpErase 5))
    as (t' & old & Hs & Ho & Hc); [compute_done|].
  exists t'. split; [exact Hs|].
  vm_compute in Ho. injection Ho as <-.
  change (entry_count (set_slot (@thread_safe_hash_table_ctor N Z) 5
            (Bucket.Build [(15, 7%Z); (5, 8%Z)]))) with 2%nat in Hc.
  lia.
Defined.

(** ** The lookup after [erase] *)

Lemma first_value_skip {K V : Type} `{EqDecision K} (key : K) (l1 l : list (K * V)) :
  Forall (λ e, e.1 ≠ key) l1 → first_value key (l1 ++ l) = first_value key l.
Proof.
  induction 1 as [|e l1 He _ IH]; simpl; [done|]. by rewrite decide_False.
Qed.

(** X13.  On a table that still has its slots whose bucket for [key] is
    [l1 ++ (key, value) :: l2] with no entry of [l1] under the key,
    [erase(key)] succeeds and leaves that bucket as [l1 ++ l2].  The lookup
    of the key then finds nothing if [l2] has no entry under the key, and
    otherwise finds the value of the first such entry of [l2]: the next
    duplicate in storage order becomes visible. *)
Theorem erase_exposes_next_match
    {K V : Type} `{EqDecision K} (hash : K → N)
    (t : thread_safe_hash_table K V) (key : K) (value : V)
    (b : Bucket.t K V) (l1 l2 : list (K * V)) :
  slots_intact t →
  data t !! N.to_nat (hash key mod buckets_count t) = Some b →
  Bucket.data b = l1 ++ (key, value) :: l2 →
  Forall (λ e, e.1 ≠ key) l1 →
  ∃ t' b',
    erase hash t key = Ok t'
    ∧ data t' !! N.to_nat (hash key mod buckets_count t) = Some b'
    ∧ Bucket.data b' = l1 ++ l2
    ∧ (Forall (λ e, e.1 ≠ key) l2 → found_value hash t' key = Ok None)
    ∧ (∀ l2a value2 l2b,
         l2 = l2a ++ (key, value2) :: l2b → Forall (λ e, e.1 ≠ key) l2a →
         found_value hash t' key = Ok (Some value2)).
Proof.
  intros Ht Hb Hsplit Hl1.
  set (i := hash key mod buckets_count t) in *.
  set (t' := set_slot t i (Bucket.erase b key)).
  assert (Ht' : slots_intact t') by by apply set_slot_intact.
  assert (Hb' : data t' !! N.to_nat i = Some (Bucket.erase b key))
    by exact (set_slot_lookup t i _ b Hb).
  assert (Hd : Bucket.data (Bucket.erase b key) = l1 ++ l2).
  { rewrite erase_remove_first, Hsplit. clear Hsplit.
    induction Hl1 as [|e l1 He _ IH]; simpl.
    - by rewrite decide_True.
    - rewrite decide_False by done. by rewrite IH. }
  assert (Hf : found_value hash t' key = Ok (first_value key l2)).
  { rewrite (found_value_routed hash t' key _ Ht' Hb'), Hd.
    by rewrite first_value_skip. }
  exists t', (Bucket.erase b key).
  split_and!; [exact (erase_routed hash t key b Ht Hb)|done|done| |].
  - intros Hl2. rewrite Hf. f_equal. by apply first_value_None.
  - intros l2a value2 l2b -> Hl2a. rewrite Hf. f_equal.
    rewrite first_value_skip by done. simpl. by rewrite decide_True.
Qed.

Lemma erase_exposes_next_match_witness :
  ∃ t' b',
    erase (λ n : N, n)
      (set_slot (@thread_safe_hash_table_ctor N Z) 5
         (Bucket.Build [(15, 7%Z); (5, 8%Z); (25, 6%Z); (5, 9%Z)])) 5 = Ok t'
    ∧ data t' !! 5%nat = Some b'
    ∧ Bucket.data b' = [(15, 7%Z); (25, 6%Z); (5, 9%Z)]
    ∧ found_value (λ n : N, n) t' 5 = Ok (Some 9%Z).
Proof.
  destruct (erase_exposes_next_match (λ n : N, n)
              (set_slot (@thread_safe_hash_table_ctor N Z) 5
                 (Bucket.Build [(15, 7%Z); (5, 8%Z); (25, 6%Z); (5, 9%Z)]))
              5 8%Z (Bucket.Build [(15, 7%Z); (5, 8%Z); (25, 6%Z); (5, 9%Z)])
              [(15, 7%Z)] [(25, 6%Z); (5, 9%Z)])
    as (t' & b' & He & Hb' & Hd & _ & Hnext);
    [compute_done|reflexivity|reflexivity|compute_done|].
  exists t', b'. split_and!; [exact He|exact Hb'|exact Hd|].
  apply (Hnext [(25, 6%Z)] 9%Z []); [reflexivity|compute_done].
Defined.

(** ** [emplace] on the packs it instantiates for *)

(** X14.  On a table that still has its slots, [emplace(key)] appends the
    entry [(key, V())] and [emplace(key, value)] the entry [(key, value)] to
    the bucket of the key's hash, whatever that bucket already holds; the
    resulting table is the one [insert] of that key and value gives. *)
Theorem emplace_appends_forwarded_value
    {K V : Type} (hash : K → N) (V_default : V)
    (t : thread_safe_hash_table K V) (key : K) (args : emplace_args V) :
  slots_intact t →
  ∃ t' b b',
    emplace hash V_default t key args = Ok t'
    ∧ data t !! N.to_nat (hash key mod buckets_count t) = Some b
    ∧ data t' !! N.to_nat (hash key mod buckets_count t) = Some b'
    ∧ Bucket.data b'
      = Bucket.data b
        ++ [(key, match args with NoArgs => V_default | OneArg value => value end)]
    ∧ insert hash t key
        (match args with NoArgs => V_default | OneArg value => value end)
      = Ok t'.
Proof.
  intros Ht. destruct (target_bucket hash t key Ht) as [b Hb].
  set (i := hash key mod buckets_count t) in *.
  exists (set_slot t i (Bucket.insert b key (construct V_default args))), b,
    (Bucket.insert b key (construct V_default args)).
  split_and!.
  - exact (emplace_routed hash V_default t key args b Ht Hb).
  - done.
  - exact (set_slot_lookup t i _ b Hb).
  - by destruct args.
  - rewrite (insert_routed hash t key _ b Ht Hb). by destruct args.
Qed.

Lemma emplace_appends_forwarded_value_witness :
  ∃ t' b',
    emplace (λ n : N, n) 0%Z
      (set_slot (@thread_safe_hash_table_ctor N Z) 5 (Bucket.Build [(5, 8%Z)]))
      5 (OneArg 9%Z) = Ok t'
    ∧ data t' !! 5%nat = Some b'
    ∧ Bucket.data b' = [(5, 8%Z); (5, 9%Z)].
Proof.
  destruct (emplace_appends_forwarded_value (λ n : N, n) 0%Z
              (set_slot (@thread_safe_hash_table_ctor N Z) 5
                 (Bucket.Build [(5, 8%Z)])) 5 (OneArg 9%Z))
    as (t' & b & b' & He & Hb & Hb' & Hd & _); [compute_done|].
  exists t', b'. split_and!; [exact He|exact Hb'|].
  rewrite Hd. vm_compute in Hb. by injection Hb as <-.
Defined.
